(** * Monkey: token vocabulary and syntax tree, with their textual rendering

    A shallow embedding of the two Go packages of the repository:

    - [token] (src/token/token.go): token kinds, tokens, the keyword table
      and [LookuptIdent];
    - [ast]: the node types, [TokenLiteral] and [String] of every node.

    Conventions of the embedding.

    - A Go [string] is a [string]; [+] on strings is [String.append],
      written [+:+]; [strings.Join(l, sep)] is [String.concat sep l].
    - A [bytes.Buffer] is the string written so far; [WriteString] appends.
    - A Go map with string keys is a [gmap string _].
    - A run-time panic (a nil interface whose method is called, a nil
      pointer whose field is read) is the result [None]; a call that returns
      [s] is [Some s].
    - The interface types [Statement] and [Expression] are inductive types:
      one constructor per concrete node type, one for the nil interface
      value and one for an interface value that holds a nil pointer. *)

From Stdlib Require Import ZArith.
From stdpp Require Import base option list strings gmap.

Local Open Scope string_scope.
Local Open Scope list_scope.

(** ** Package token *)

Module token.

(** [type TokenType string] *)
Definition TokenType : Type := string.

(** [type Token struct { Type TokenType; Literal string }] *)
Record Token : Type := mkToken { Type_ : TokenType; Literal : string }.

Definition ILLEGAL : TokenType := "ILLEGAL".
Definition EOF : TokenType := "EOF".
Definition IDENT : TokenType := "IDENT".
Definition INT : TokenType := "INT".
Definition STRING : TokenType := "STRING".
Definition ASSIGN : TokenType := "=".
Definition PLUS : TokenType := "+".
Definition MINUS : TokenType := "-".
Definition BANG : TokenType := "!".
Definition ASTARISK : TokenType := "*".
Definition SLASH : TokenType := "/".
Definition COMMA : TokenType := ",".
Definition SEMICOLON : TokenType := ";".
Definition COLON : TokenType := ":".
Definition LPAREN : TokenType := "(".
Definition RPAREN : TokenType := ")".
Definition LBRACE : TokenType := "{".
Definition RBRACE : TokenType := "}".
Definition LT : TokenType := "<".
Definition GT : TokenType := ">".
Definition LBRACKET : TokenType := "[".
Definition RBRACKET : TokenType := "]".
Definition EQ : TokenType := "==".
Definition NOT_EQ : TokenType := "!=".
Definition FUNCTION : TokenType := "FUNCTION".
Definition LET : TokenType := "LET".
Definition TRUE : TokenType := "TRUE".
Definition FALSE : TokenType := "FALSE".
Definition IF : TokenType := "IF".
Definition ELSE : TokenType := "ELSE".
Definition RETURN : TokenType := "RETURN".

(** [var keywords = map[string]TokenType{ ... }], the entries inserted in
    the order of the composite literal. *)
Definition keywords : gmap string TokenType :=
  <["return" := RETURN]>
  (<["else" := ELSE]>
  (<["if" := IF]>
  (<["false" := FALSE]>
  (<["true" := TRUE]>
  (<["let" := LET]>
  (<["fn" := FUNCTION]> ∅)))))).

(** [func LookuptIdent(ident string) TokenType] *)
Definition LookuptIdent (ident : string) : TokenType :=
  match keywords !! ident with
  | Some ttype => ttype
  | None => IDENT
  end.

(** The seven reserved words, each with its keyword kind, as the spec lists
    them. *)
Definition reserved_words : list (string * TokenType) :=
  [("fn", FUNCTION); ("let", LET); ("true", TRUE); ("false", FALSE);
   ("if", IF); ("else", ELSE); ("return", RETURN)].

(** The classification as the spec words it: the keyword kind when the text
    is one of the seven reserved words, compared exactly, and the kind of a
    plain identifier for any other text. *)
Definition classify (raw_identifier_text : string) : TokenType :=
  if decide (raw_identifier_text = "fn") then FUNCTION
  else if decide (raw_identifier_text = "let") then LET
  else if decide (raw_identifier_text = "true") then TRUE
  else if decide (raw_identifier_text = "false") then FALSE
  else if decide (raw_identifier_text = "if") then IF
  else if decide (raw_identifier_text = "else") then ELSE
  else if decide (raw_identifier_text = "return") then RETURN
  else IDENT.

(** The kinds of the keywords. *)
Definition keyword_kinds : list TokenType :=
  [FUNCTION; LET; TRUE; FALSE; IF; ELSE; RETURN].

End token.

(** ** Package ast *)

Module ast.
Import token.

(** *** bytes.Buffer and the loops that fill it *)

(** [var out bytes.Buffer]: the text written so far, empty at first. *)
Definition Buffer : Type := string.
Definition new_Buffer : Buffer := "".

(** [out.WriteString(s)] *)
Definition WriteString (out : Buffer) (s : string) : Buffer := out +:+ s.

(** [for _, x := range l { out.WriteString(x.String()) }], where [f x] is
    the call [x.String()]: the loop stops at the first call that panics. *)
Definition range_WriteString {A : Type} (f : A → option string)
  : list A → Buffer → option Buffer :=
  fix loop (l : list A) (out : Buffer) : option Buffer :=
    match l with
    | [] => Some out
    | x :: l' => s ← f x; loop l' (WriteString out s)
    end.

(** [for _, x := range l { acc = append(acc, x.String()) }] *)
Definition range_append {A : Type} (f : A → option string)
  : list A → list string → option (list string) :=
  fix loop (l : list A) (acc : list string) : option (list string) :=
    match l with
    | [] => Some acc
    | x :: l' => s ← f x; loop l' (acc ++ [s])
    end.

(** [strings.Join(elems, sep)] *)
Definition Join (elems : list string) (sep : string) : string :=
  String.concat sep elems.

(** *** Node types *)

(** [type Identifier struct { Token token.Token; Value string }] *)
Record Identifier : Type := mkIdentifier {
  Identifier_Token : Token;
  Identifier_Value : string
}.

(** Induction over trees whose children sit in lists, pairs and options
    needs the predicate lifted to those containers. *)
Scheme All for list.
Scheme All for prod.
Scheme All for option.

(** The interfaces [Expression] and [Statement] and the struct
    [BlockStatement]. A field of pointer type ([*Identifier],
    [*BlockStatement]) is an [option]: [None] is the nil pointer. A slice is
    a list. [Pairs map[Expression]Expression] is the list of the entries of
    the map; keys are compared by identity in Go, so two entries may hold
    keys that are equal as trees. *)
Inductive Expression : Type :=
  | nilExpression
  | nilptrExpression
  | Ident (id : Identifier)
  | IntegerLiteral (Token : Token) (Value : Z)
  | PrefixExpression (Token : Token) (Operator : string) (Right : Expression)
  | InfixExpression (Token : Token) (Left : Expression) (Operator : string)
      (Right : Expression)
  | Boolean (Token : Token) (Value : bool)
  | IfExpression (Token : Token) (Condition : Expression)
      (Consequence : option BlockStatement)
      (Alternative : option BlockStatement)
  | FunctionLiteral (Token : Token) (Parameters : list (option Identifier))
      (Body : option BlockStatement)
  | CallExpression (Token : Token) (Function : Expression)
      (Arguments : list Expression)
  | StringLiteral (Token : Token) (Value : string)
  | ArrayLiteral (Token : Token) (Elements : list Expression)
  | IndexExpression (Token : Token) (Left : Expression) (Index : Expression)
  | HashLiteral (Token : Token) (Pairs : list (Expression * Expression))
with Statement : Type :=
  | nilStatement
  | nilptrStatement
  | LetStatement (Token : Token) (Name : option Identifier)
      (Value : Expression)
  | ReturnStatement (Token : Token) (ReturnValue : Expression)
  | ExpressionStatement (Token : Token) (Expression_ : Expression)
  | Block (bs : BlockStatement)
with BlockStatement : Type :=
  | mkBlockStatement (Token : Token) (Statements : list Statement).

Scheme Expression_mutind := Induction for Expression Sort Prop
  with Statement_mutind := Induction for Statement Sort Prop
  with BlockStatement_mutind := Induction for BlockStatement Sort Prop.

Combined Scheme node_mutind
  from Expression_mutind, Statement_mutind, BlockStatement_mutind.

(** [type Program struct { Statements []Statement }] *)
Record Program : Type := mkProgram { Statements : list Statement }.

(** [e != nil] for a value of interface type: an interface value that holds
    a nil pointer is not nil. *)
Definition Expression_is_nil (e : Expression) : bool :=
  match e with nilExpression => true | _ => false end.

(** The order in which a [range] statement visits the entries of a map. Go
    leaves it open: [range_order l] is some rearrangement of the entries
    [l], and nothing else is known about it. *)
Record MapOrder : Type := mkMapOrder {
  range_order : ∀ A : Type, list A → list A;
  range_order_perm : ∀ (A : Type) (l : list A), range_order A l ≡ₚ l
}.

(** The order that visits the entries as they are listed. *)
Definition listed_order : MapOrder :=
  {| range_order := λ _ l, l; range_order_perm := λ _ l, reflexivity l |}.

(** *** TokenLiteral *)

Definition Identifier_TokenLiteral (id : option Identifier) : option string :=
  id ← id; Some (Literal (Identifier_Token id)).

(** [func (id *Identifier) String() string { return id.Value }]: reading the
    field of a nil receiver panics. *)
Definition Identifier_String (id : option Identifier) : option string :=
  id ← id; Some (Identifier_Value id).

(** [func (s *StringLiteral) String() string { return s.Token.Literal }] *)
Definition StringLiteral_String (Token : Token) (Value : string) : option string :=
  Some (Literal Token).

(** [func (b *Boolean) String() string { return b.Token.Literal }] *)
Definition Boolean_String (Token : Token) (Value : bool) : option string :=
  Some (Literal Token).

(** [TokenLiteral()] called on a value of type [Expression]. *)
Definition Expression_TokenLiteral (e : Expression) : option string :=
  match e with
  | nilExpression | nilptrExpression => None
  | Ident id => Identifier_TokenLiteral (Some id)
  | IntegerLiteral tok _ => Some (Literal tok)
  | PrefixExpression tok _ _ => Some (Literal tok)
  | InfixExpression tok _ _ _ => Some (Literal tok)
  | Boolean tok _ => Some (Literal tok)
  | IfExpression tok _ _ _ => Some (Literal tok)
  | FunctionLiteral tok _ _ => Some (Literal tok)
  | CallExpression tok _ _ => Some (Literal tok)
  | StringLiteral tok v => StringLiteral_String tok v
  | ArrayLiteral tok _ => Some (Literal tok)
  | IndexExpression tok _ _ => Some (Literal tok)
  | HashLiteral tok _ => Some (Literal tok)
  end.

Definition BlockStatement_TokenLiteral (bs : option BlockStatement) : option string :=
  bs ← bs; match bs with mkBlockStatement tok _ => Some (Literal tok) end.

(** [TokenLiteral()] called on a value of type [Statement]. *)
Definition Statement_TokenLiteral (s : Statement) : option string :=
  match s with
  | nilStatement | nilptrStatement => None
  | LetStatement tok _ _ => Some (Literal tok)
  | ReturnStatement tok _ => Some (Literal tok)
  | ExpressionStatement tok _ => Some (Literal tok)
  | Block bs => BlockStatement_TokenLiteral (Some bs)
  end.

(** [func (p *Program) TokenLiteral() string] *)
Definition Program_TokenLiteral (p : Program) : option string :=
  range_WriteString Statement_TokenLiteral (Statements p) new_Buffer.

(** *** String *)

Section String.

Variable O : MapOrder.

(** [String()] called on a value of type [Expression], on a value of type
    [Statement], and on a non-nil [*BlockStatement]. Calling a method of a
    nil interface value panics; so does every [String] method of the
    package when its receiver is a nil pointer, since each one reads a field
    of the receiver: that is the [None] branch of the calls on a
    [*BlockStatement]. In [HashLiteral], [String] has no effect but a
    panic, so the bodies of the loop are taken entry by entry and then run
    in the order of the range. *)
Fixpoint Expression_String (e : Expression) : option string :=
  match e with
  | nilExpression => None
  | nilptrExpression => None
  | Ident id => Identifier_String (Some id)
  | IntegerLiteral tok _ =>
      (* return il.TokenLiteral() *)
      Some (Literal tok)
  | PrefixExpression _ Operator Right =>
      let out := new_Buffer in
      let out := WriteString out "(" in
      let out := WriteString out Operator in
      s ← Expression_String Right;
      let out := WriteString out s in
      let out := WriteString out ")" in
      Some out
  | InfixExpression _ Left Operator Right =>
      let out := new_Buffer in
      let out := WriteString out "(" in
      s ← Expression_String Left;
      let out := WriteString out s in
      let out := WriteString out (" " +:+ Operator +:+ " ") in
      s ← Expression_String Right;
      let out := WriteString out s in
      let out := WriteString out ")" in
      Some out
  | Boolean tok v => Boolean_String tok v
  | IfExpression _ Condition Consequence Alternative =>
      let out := new_Buffer in
      let out := WriteString out "if" in
      s ← Expression_String Condition;
      let out := WriteString out s in
      let out := WriteString out " " in
      s ← match Consequence with
          | Some bs => BlockStatement_String bs
          | None => None
          end;
      let out := WriteString out s in
      out ← match Alternative with
            | Some bs =>
                let out := WriteString out "else " in
                s ← BlockStatement_String bs;
                Some (WriteString out s)
            | None => Some out
            end;
      Some out
  | FunctionLiteral tok Parameters Body =>
      let out := new_Buffer in
      params ← range_append Identifier_String Parameters [];
      let out := WriteString out (Literal tok) in
      let out := WriteString out "(" in
      let out := WriteString out (Join params ", ") in
      let out := WriteString out ")" in
      s ← match Body with
          | Some bs => BlockStatement_String bs
          | None => None
          end;
      let out := WriteString out s in
      Some out
  | CallExpression _ Function Arguments =>
      let out := new_Buffer in
      args ← range_append Expression_String Arguments [];
      s ← Expression_String Function;
      let out := WriteString out s in
      let out := WriteString out "(" in
      let out := WriteString out (Join args ", ") in
      let out := WriteString out ")" in
      Some out
  | StringLiteral tok v => StringLiteral_String tok v
  | ArrayLiteral _ Elements =>
      let out := new_Buffer in
      elements ← range_append Expression_String Elements [];
      let out := WriteString out "[" in
      let out := WriteString out (Join elements ", ") in
      let out := WriteString out "]" in
      Some out
  | IndexExpression _ Left Index =>
      let out := new_Buffer in
      let out := WriteString out "(" in
      s ← Expression_String Left;
      let out := WriteString out s in
      let out := WriteString out "[" in
      s ← Expression_String Index;
      let out := WriteString out s in
      let out := WriteString out "])" in
      Some out
  | HashLiteral _ Pairs =>
      let out := new_Buffer in
      (* the body of the loop, for each entry of the map *)
      let body :=
        map (λ kv, k ← Expression_String kv.1;
                   v ← Expression_String kv.2;
                   Some (k +:+ ":" +:+ v)) Pairs in
      (* the loop runs it on the entries in the order of the range *)
      pairs ← range_append id (range_order O _ body) [];
      let out := WriteString out "{" in
      let out := WriteString out (Join pairs ", ") in
      let out := WriteString out "}" in
      Some out
  end
with Statement_String (s : Statement) : option string :=
  match s with
  | nilStatement => None
  | nilptrStatement => None
  | LetStatement tok Name Value =>
      let out := new_Buffer in
      let out := WriteString out (Literal tok +:+ " ") in
      s ← Identifier_String Name;
      let out := WriteString out s in
      let out := WriteString out " = " in
      out ← (if Expression_is_nil Value then Some out
             else s ← Expression_String Value; Some (WriteString out s));
      let out := WriteString out ";" in
      Some out
  | ReturnStatement tok ReturnValue =>
      let out := new_Buffer in
      let out := WriteString out (Literal tok +:+ " ") in
      let out := WriteString out " " in
      out ← (if Expression_is_nil ReturnValue then Some out
             else s ← Expression_String ReturnValue;
                  Some (WriteString out s));
      let out := WriteString out ";" in
      Some out
  | ExpressionStatement _ Expression_ =>
      if Expression_is_nil Expression_ then Some ""
      else Expression_String Expression_
  | Block bs => BlockStatement_String bs
  end
with BlockStatement_String (bs : BlockStatement) : option string :=
  match bs with
  | mkBlockStatement _ Statements =>
      let out := new_Buffer in
      range_WriteString Statement_String Statements out
  end.

(** [func (p *Program) String() string] *)
Definition Program_String (p : Program) : option string :=
  let out := new_Buffer in
  range_WriteString Statement_String (Statements p) out.

End String.

(** *** Trees whose required children are present

    The children that [String] reads behind a nil test are
    [LetStatement.Value], [ReturnStatement.ReturnValue],
    [ExpressionStatement.Expression] and [IfExpression.Alternative]; every
    other child is used as it is. [Expression_complete e] holds when, in
    [e] and below it, every child of the second sort is there: no nil
    interface value, no nil pointer. *)
Fixpoint Expression_complete (e : Expression) : bool :=
  match e with
  | nilExpression | nilptrExpression => false
  | Ident _ | IntegerLiteral _ _ | Boolean _ _ | StringLiteral _ _ => true
  | PrefixExpression _ _ Right => Expression_complete Right
  | InfixExpression _ Left _ Right =>
      Expression_complete Left && Expression_complete Right
  | IfExpression _ Condition Consequence Alternative =>
      Expression_complete Condition
      && match Consequence with
         | Some bs => BlockStatement_complete bs
         | None => false
         end
      && match Alternative with
         | Some bs => BlockStatement_complete bs
         | None => true
         end
  | FunctionLiteral _ Parameters Body =>
      forallb (λ p : option Identifier, bool_decide (is_Some p)) Parameters
      && match Body with
         | Some bs => BlockStatement_complete bs
         | None => false
         end
  | CallExpression _ Function Arguments =>
      Expression_complete Function && forallb Expression_complete Arguments
  | ArrayLiteral _ Elements => forallb Expression_complete Elements
  | IndexExpression _ Left Index =>
      Expression_complete Left && Expression_complete Index
  | HashLiteral _ Pairs =>
      forallb (λ kv, Expression_complete kv.1 && Expression_complete kv.2)
        Pairs
  end
with Statement_complete (s : Statement) : bool :=
  match s with
  | nilStatement | nilptrStatement => false
  | LetStatement _ Name Value =>
      bool_decide (is_Some Name)
      && (Expression_is_nil Value || Expression_complete Value)
  | ReturnStatement _ ReturnValue =>
      Expression_is_nil ReturnValue || Expression_complete ReturnValue
  | ExpressionStatement _ Expression_ =>
      Expression_is_nil Expression_ || Expression_complete Expression_
  | Block bs => BlockStatement_complete bs
  end
with BlockStatement_complete (bs : BlockStatement) : bool :=
  match bs with
  | mkBlockStatement _ Statements => forallb Statement_complete Statements
  end.

Definition Program_complete (p : Program) : bool :=
  forallb Statement_complete (Statements p).

(** *** Trees without a map of two entries or more

    The only loop of the package that ranges over a map is the one of
    [String] of a [HashLiteral]. [Expression_few_pairs e] holds when every
    [HashLiteral] in [e] and below it has at most one entry. *)
Fixpoint Expression_few_pairs (e : Expression) : bool :=
  match e with
  | nilExpression | nilptrExpression => true
  | Ident _ | IntegerLiteral _ _ | Boolean _ _ | StringLiteral _ _ => true
  | PrefixExpression _ _ Right => Expression_few_pairs Right
  | InfixExpression _ Left _ Right =>
      Expression_few_pairs Left && Expression_few_pairs Right
  | IfExpression _ Condition Consequence Alternative =>
      Expression_few_pairs Condition
      && match Consequence with
         | Some bs => BlockStatement_few_pairs bs
         | None => true
         end
      && match Alternative with
         | Some bs => BlockStatement_few_pairs bs
         | None => true
         end
  | FunctionLiteral _ _ Body =>
      match Body with
      | Some bs => BlockStatement_few_pairs bs
      | None => true
      end
  | CallExpression _ Function Arguments =>
      Expression_few_pairs Function && forallb Expression_few_pairs Arguments
  | ArrayLiteral _ Elements => forallb Expression_few_pairs Elements
  | IndexExpression _ Left Index =>
      Expression_few_pairs Left && Expression_few_pairs Index
  | HashLiteral _ Pairs =>
      Nat.leb (length Pairs) 1
      && forallb (λ kv, Expression_few_pairs kv.1 && Expression_few_pairs kv.2)
           Pairs
  end
with Statement_few_pairs (s : Statement) : bool :=
  match s with
  | nilStatement | nilptrStatement => true
  | LetStatement _ _ Value => Expression_few_pairs Value
  | ReturnStatement _ ReturnValue => Expression_few_pairs ReturnValue
  | ExpressionStatement _ Expression_ => Expression_few_pairs Expression_
  | Block bs => BlockStatement_few_pairs bs
  end
with BlockStatement_few_pairs (bs : BlockStatement) : bool :=
  match bs with
  | mkBlockStatement _ Statements => forallb Statement_few_pairs Statements
  end.

Definition Program_few_pairs (p : Program) : bool :=
  forallb Statement_few_pairs (Statements p).

(** The order that visits the entries from the last listed to the first. *)
Definition reversed_order : MapOrder :=
  {| range_order := λ _ l, reverse l;
     range_order_perm := λ _ l, reverse_Permutation l |}.

End ast.

Import token ast.

(** * Properties *)

(** ** Strings and loops *)

Lemma append_nil_r (s : string) : s +:+ "" = s.
Proof.
  induction s as [|a s IH]; [done|].
  change (String a (s +:+ "") = String a s). by rewrite IH.
Qed.

Lemma append_assoc (s1 s2 s3 : string) :
  (s1 +:+ s2) +:+ s3 = s1 +:+ (s2 +:+ s3).
Proof.
  induction s1 as [|a s1 IH]; [done|].
  change (String a ((s1 +:+ s2) +:+ s3) = String a (s1 +:+ (s2 +:+ s3))).
  by rewrite IH.
Qed.

(** Joining with the empty separator is plain concatenation. *)
Lemma concat_empty_cons (s : string) (ss : list string) :
  String.concat "" (s :: ss) = s +:+ String.concat "" ss.
Proof. destruct ss as [|s' ss]; [by rewrite append_nil_r|done]. Qed.

(** The loop that writes each [f x] to the buffer returns, when every call
    returns, the buffer followed by the results in the order of the list,
    with nothing between them; it panics when one call does. *)
Lemma range_WriteString_mapM {A} (f : A → option string) (l : list A) out :
  range_WriteString f l out =
  ss ← mapM f l; Some (out +:+ String.concat "" ss).
Proof.
  revert out. induction l as [|x l IH]; intros out; cbn.
  - by rewrite append_nil_r.
  - destruct (f x) as [s|]; cbn; [|done].
    rewrite IH. destruct (mapM f l) as [ss|]; cbn; [|done].
    unfold WriteString. rewrite append_assoc. do 2 f_equal.
    symmetry. apply concat_empty_cons.
Qed.

(** The loop that appends each [f x] to a slice returns, when every call
    returns, the slice followed by the results in the order of the list. *)
Lemma range_append_mapM {A} (f : A → option string) (l : list A) acc :
  range_append f l acc = ss ← mapM f l; Some (acc ++ ss).
Proof.
  revert acc. induction l as [|x l IH]; intros acc; cbn.
  - by rewrite app_nil_r.
  - destruct (f x) as [s|]; cbn; [|done].
    rewrite IH. destruct (mapM f l) as [ss|]; cbn; [|done].
    by rewrite <-app_assoc.
Qed.

Lemma range_WriteString_Forall2 {A} (f : A → option string) l ss :
  Forall2 (λ x s, f x = Some s) l ss →
  range_WriteString f l new_Buffer = Some (String.concat "" ss).
Proof.
  intros H%mapM_Some_2. by rewrite range_WriteString_mapM, H.
Qed.

Lemma range_append_Forall2 {A} (f : A → option string) l ss :
  Forall2 (λ x s, f x = Some s) l ss → range_append f l [] = Some ss.
Proof.
  intros H%mapM_Some_2. by rewrite range_append_mapM, H.
Qed.

(** ** Token model *)

Lemma keywords_lookup (ident : string) :
  keywords !! ident =
  if decide (ident = "fn") then Some FUNCTION
  else if decide (ident = "let") then Some LET
  else if decide (ident = "true") then Some TRUE
  else if decide (ident = "false") then Some FALSE
  else if decide (ident = "if") then Some IF
  else if decide (ident = "else") then Some ELSE
  else if decide (ident = "return") then Some RETURN
  else None.
Proof.
  unfold keywords. rewrite !lookup_insert, lookup_empty.
  repeat case_decide; simplify_eq; done.
Qed.

(** C3. [LookuptIdent] is a total function that classifies as the spec
    says: on each of the seven reserved words, compared exactly, it returns
    that word's keyword kind, and on every other string it returns [IDENT];
    so its result is a keyword kind exactly when the input is a reserved
    word. *)
Theorem C3_LookuptIdent_classify (ident : string) :
  LookuptIdent ident = classify ident
  ∧ (LookuptIdent ident ∈ keyword_kinds ↔ ident ∈ reserved_words.*1)
  ∧ (LookuptIdent ident = IDENT ↔ ident ∉ reserved_words.*1).
Proof.
  unfold LookuptIdent, classify. rewrite keywords_lookup.
  unfold keyword_kinds, reserved_words. cbn [fmap list_fmap fst].
  repeat case_decide; subst;
    (split; [done|]); rewrite ?list_elem_of_In; cbn;
    (split; split; intros Hin; try done; try tauto;
     try (intuition congruence)).
  all: try (exfalso; apply Hin; tauto).
  exfalso. by repeat destruct Hin as [Hin|Hin].
Qed.

(** The match is exact: a reserved word in other letter case, or with
    text around it, is a plain identifier. *)
Example LookuptIdent_examples :
  LookuptIdent "let" = LET ∧ LookuptIdent "Let" = IDENT
  ∧ LookuptIdent "RETURN" = IDENT ∧ LookuptIdent "fn " = IDENT
  ∧ LookuptIdent "" = IDENT ∧ LookuptIdent "return" = RETURN.
Proof. by vm_compute. Qed.

(** ** Rendering: leaves *)

Lemma append_nil_l (s : string) : "" +:+ s = s.
Proof. done. Qed.

(** Normalises the text of a buffer: the writes become appends, nested to
    the right. *)
Ltac buffer_norm :=
  unfold WriteString, new_Buffer, Join;
  rewrite ?append_assoc, ?append_nil_l, ?append_nil_r.

Ltac buffer_eq := buffer_norm; reflexivity.

(** An expression whose [String] returns is not the nil interface value. *)
Lemma String_Some_not_nil O e s :
  Expression_String O e = Some s → Expression_is_nil e = false.
Proof. by destruct e. Qed.

(** C2, as the code has it. [String] of a [Boolean] node returns the
    literal of the node's token and never reads [Value]; it is the text
    "true" or "false" that [Value] calls for when the token's literal is
    that text. *)
Theorem C2_Boolean_String_is_token_literal O (tok : Token) (v : bool) :
  Expression_String O (Boolean tok v) = Some (Literal tok)
  ∧ (Literal tok = (if v then "true" else "false") →
     Expression_String O (Boolean tok v)
     = Some (if v then "true" else "false")).
Proof. split; [done|]. by intros <-. Qed.

Lemma C2_Boolean_String_witness :
  Literal (mkToken TRUE "true") = "true"
  ∧ Expression_String listed_order (Boolean (mkToken TRUE "true") true)
    = Some "true".
Proof.
  split; [reflexivity|].
  apply (proj2 (C2_Boolean_String_is_token_literal
                  listed_order (mkToken TRUE "true") true)).
  reflexivity.
Defined.

(** C2, as the spec words it, fails: a [Boolean] node whose [Value] is
    [false] and whose token is the keyword [true] renders as "true". *)
Lemma C2_Boolean_String_ignores_Value :
  Expression_String listed_order (Boolean (mkToken TRUE "true") false)
  = Some "true"
  ∧ Expression_String listed_order (Boolean (mkToken TRUE "true") false)
    ≠ Some (if false then "true" else "false").
Proof. split; [reflexivity|discriminate]. Qed.

(** C10. For a [StringLiteral] node, [TokenLiteral] and [String] return the
    same string, the literal of the node's token, whatever [Value] is. *)
Theorem C10_StringLiteral_TokenLiteral_String O (tok : Token) (v : string) :
  Expression_TokenLiteral (StringLiteral tok v) = Some (Literal tok)
  ∧ Expression_String O (StringLiteral tok v) = Some (Literal tok)
  ∧ Expression_TokenLiteral (StringLiteral tok v)
    = Expression_String O (StringLiteral tok v)
  ∧ ∀ v', Expression_String O (StringLiteral tok v')
          = Expression_String O (StringLiteral tok v)
          ∧ Expression_TokenLiteral (StringLiteral tok v')
            = Expression_TokenLiteral (StringLiteral tok v).
Proof. done. Qed.

(** ** Rendering: statements *)

(** C4. [String] of a [LetStatement] whose [Name] renders as [sn]: when
    [Value] renders as [sv], the result is the literal of the token, a
    space, [sn], " = ", [sv] and ";"; when [Value] is nil, it is the same
    without [sv], and the ";" is still there. *)
Theorem C4_LetStatement_String O (tok : Token) Name Value (sn : string) :
  Identifier_String Name = Some sn →
  (∀ sv, Expression_String O Value = Some sv →
     Statement_String O (LetStatement tok Name Value)
     = Some (Literal tok +:+ " " +:+ sn +:+ " = " +:+ sv +:+ ";"))
  ∧ Statement_String O (LetStatement tok Name nilExpression)
    = Some (Literal tok +:+ " " +:+ sn +:+ " = " +:+ ";").
Proof.
  intros Hn. split.
  - intros sv Hv. cbn. rewrite Hn, (String_Some_not_nil _ _ _ Hv), Hv. cbn.
    f_equal. buffer_eq.
  - cbn. rewrite Hn. cbn. f_equal. buffer_eq.
Qed.

Lemma C4_LetStatement_String_witness :
  Statement_String listed_order
    (LetStatement (mkToken LET "let")
       (Some (mkIdentifier (mkToken IDENT "x") "x"))
       (IntegerLiteral (mkToken INT "5") 5))
  = Some "let x = 5;"
  ∧ Statement_String listed_order
      (LetStatement (mkToken LET "let")
         (Some (mkIdentifier (mkToken IDENT "x") "x")) nilExpression)
    = Some "let x = ;".
Proof.
  pose proof (C4_LetStatement_String listed_order (mkToken LET "let")
                (Some (mkIdentifier (mkToken IDENT "x") "x"))
                (IntegerLiteral (mkToken INT "5") 5) "x" eq_refl) as [H1 H2].
  split; [exact (H1 "5" eq_refl)|exact H2].
Defined.

(** C5. [String] of a [ReturnStatement]: when [ReturnValue] renders as
    [sv], the result is the literal of the token, two spaces, [sv] and ";";
    when [ReturnValue] is nil, it is the literal, two spaces and ";". *)
Theorem C5_ReturnStatement_String O (tok : Token) ReturnValue :
  (∀ sv, Expression_String O ReturnValue = Some sv →
     Statement_String O (ReturnStatement tok ReturnValue)
     = Some (Literal tok +:+ "  " +:+ sv +:+ ";"))
  ∧ Statement_String O (ReturnStatement tok nilExpression)
    = Some (Literal tok +:+ "  " +:+ ";").
Proof.
  split.
  - intros sv Hv. cbn. rewrite (String_Some_not_nil _ _ _ Hv), Hv. cbn.
    f_equal. buffer_eq.
  - cbn. f_equal. buffer_eq.
Qed.

Lemma C5_ReturnStatement_String_witness :
  Statement_String listed_order
    (ReturnStatement (mkToken RETURN "return") (Boolean (mkToken TRUE "true") true))
  = Some "return  true;"
  ∧ Statement_String listed_order
      (ReturnStatement (mkToken RETURN "return") nilExpression)
    = Some "return  ;".
Proof.
  pose proof (C5_ReturnStatement_String listed_order (mkToken RETURN "return")
                (Boolean (mkToken TRUE "true") true)) as [H1 H2].
  split; [exact (H1 "true" eq_refl)|exact H2].
Defined.

(** ** Rendering: operators *)

(** C6. [String] of a [PrefixExpression] whose [Right] renders as [sr] is
    "(", the operator, [sr], ")", with no space after the operator; [String]
    of an [InfixExpression] whose [Left] and [Right] render as [sl] and [sr]
    is "(", [sl], a space, the operator, a space, [sr], ")". *)
Theorem C6_Prefix_Infix_String O (tok : Token) (Operator : string) Right sr :
  Expression_String O Right = Some sr →
  Expression_String O (PrefixExpression tok Operator Right)
  = Some ("(" +:+ Operator +:+ sr +:+ ")")
  ∧ ∀ Left sl, Expression_String O Left = Some sl →
      Expression_String O (InfixExpression tok Left Operator Right)
      = Some ("(" +:+ sl +:+ " " +:+ Operator +:+ " " +:+ sr +:+ ")").
Proof.
  intros Hr. split.
  - cbn. rewrite Hr. cbn. f_equal. buffer_eq.
  - intros Left sl Hl. cbn. rewrite Hl, Hr. cbn. f_equal. buffer_eq.
Qed.

Lemma C6_Prefix_Infix_String_witness :
  Expression_String listed_order
    (PrefixExpression (mkToken MINUS "-") "-" (IntegerLiteral (mkToken INT "5") 5))
  = Some "(-5)"
  ∧ Expression_String listed_order
      (InfixExpression (mkToken PLUS "+")
         (IntegerLiteral (mkToken INT "1") 1) "+"
         (IntegerLiteral (mkToken INT "2") 2))
    = Some "(1 + 2)"
  ∧ Expression_String listed_order
      (InfixExpression (mkToken PLUS "+")
         (InfixExpression (mkToken PLUS "+")
            (IntegerLiteral (mkToken INT "1") 1) "+"
            (IntegerLiteral (mkToken INT "2") 2)) "+"
         (IntegerLiteral (mkToken INT "3") 3))
    = Some "((1 + 2) + 3)".
Proof.
  pose (one := IntegerLiteral (mkToken INT "1") 1).
  pose (two := IntegerLiteral (mkToken INT "2") 2).
  pose (plus := mkToken PLUS "+").
  assert (H12 : Expression_String listed_order
                  (InfixExpression plus one "+" two) = Some "(1 + 2)").
  { exact (proj2 (C6_Prefix_Infix_String listed_order plus "+" two "2" eq_refl)
             one "1" eq_refl). }
  split; [|split].
  - exact (proj1 (C6_Prefix_Infix_String listed_order (mkToken MINUS "-") "-"
                    (IntegerLiteral (mkToken INT "5") 5) "5" eq_refl)).
  - exact H12.
  - exact (proj2 (C6_Prefix_Infix_String listed_order plus "+"
                    (IntegerLiteral (mkToken INT "3") 3) "3" eq_refl)
             (InfixExpression plus one "+" two) "(1 + 2)" H12).
Defined.

(** ** Rendering: sequences of statements *)

Lemma concat_empty_foldr (ss : list string) :
  String.concat "" ss = foldr String.append "" ss.
Proof.
  induction ss as [|s ss IH]; [done|].
  by rewrite concat_empty_cons, IH.
Qed.

Lemma range_WriteString_foldr {A} (f : A → option string) l ss :
  Forall2 (λ x s, f x = Some s) l ss →
  range_WriteString f l new_Buffer = Some (foldr String.append "" ss).
Proof.
  intros H. rewrite <-concat_empty_foldr. by apply range_WriteString_Forall2.
Qed.

(** C7. For a [Program] whose statements have the token literals [ts],
    [TokenLiteral] returns [ts] concatenated in the order of the statements;
    for one whose statements render as [ss], [String] returns [ss]
    concatenated in that order, with nothing between them. Both return the
    empty string for a program without statements. *)
Theorem C7_Program_TokenLiteral_String O (p : Program) :
  (∀ ts, Forall2 (λ s t, Statement_TokenLiteral s = Some t) (Statements p) ts →
     Program_TokenLiteral p = Some (foldr String.append "" ts))
  ∧ (∀ ss, Forall2 (λ s r, Statement_String O s = Some r) (Statements p) ss →
       Program_String O p = Some (foldr String.append "" ss))
  ∧ Program_TokenLiteral (mkProgram []) = Some ""
  ∧ Program_String O (mkProgram []) = Some "".
Proof.
  repeat split; try done; intros l H; by apply range_WriteString_foldr.
Qed.

Lemma C7_Program_TokenLiteral_String_witness :
  Program_TokenLiteral
    (mkProgram
       [LetStatement (mkToken LET "let")
          (Some (mkIdentifier (mkToken IDENT "x") "x"))
          (IntegerLiteral (mkToken INT "5") 5);
        ReturnStatement (mkToken RETURN "return")
          (Ident (mkIdentifier (mkToken IDENT "x") "x"))])
  = Some "letreturn"
  ∧ Program_String listed_order
      (mkProgram
         [LetStatement (mkToken LET "let")
            (Some (mkIdentifier (mkToken IDENT "x") "x"))
            (IntegerLiteral (mkToken INT "5") 5);
          ReturnStatement (mkToken RETURN "return")
            (Ident (mkIdentifier (mkToken IDENT "x") "x"))])
    = Some "let x = 5;return  x;".
Proof.
  pose (x := mkIdentifier (mkToken IDENT "x") "x").
  pose (p := mkProgram
               [LetStatement (mkToken LET "let") (Some x)
                  (IntegerLiteral (mkToken INT "5") 5);
                ReturnStatement (mkToken RETURN "return") (Ident x)]).
  pose proof (C7_Program_TokenLiteral_String listed_order p) as (H1 & H2 & _).
  split.
  - apply (H1 ["let"; "return"]). repeat constructor.
  - apply (H2 ["let x = 5;"; "return  x;"]). repeat constructor.
Defined.

(** ** Rendering: blocks and conditionals *)

(** C8. [String] of an [IfExpression] whose [Condition] renders as [sc] and
    whose [Consequence] renders as [sb] is "if", [sc], a space and [sb] when
    [Alternative] is nil, and that followed by "else " and the render of
    [Alternative] otherwise. No brace is written: [String] of a
    [BlockStatement] is the renders of its statements, concatenated in
    order with nothing before, between or after them. *)
Theorem C8_IfExpression_String O (tok : Token) Condition
    (Consequence : BlockStatement) (sc sb : string) :
  Expression_String O Condition = Some sc →
  BlockStatement_String O Consequence = Some sb →
  Expression_String O (IfExpression tok Condition (Some Consequence) None)
  = Some ("if" +:+ sc +:+ " " +:+ sb)
  ∧ (∀ Alternative sa, BlockStatement_String O Alternative = Some sa →
       Expression_String O
         (IfExpression tok Condition (Some Consequence) (Some Alternative))
       = Some ("if" +:+ sc +:+ " " +:+ sb +:+ "else " +:+ sa))
  ∧ (∀ tok' stmts ss,
       Forall2 (λ s r, Statement_String O s = Some r) stmts ss →
       BlockStatement_String O (mkBlockStatement tok' stmts)
       = Some (foldr String.append "" ss)).
Proof.
  intros Hc Hb. split; [|split].
  - cbn. rewrite Hc. cbn. rewrite Hb. cbn. f_equal. buffer_eq.
  - intros alt sa Ha. cbn. rewrite Hc. cbn. rewrite Hb. cbn. rewrite Ha. cbn.
    f_equal. buffer_eq.
  - intros tok' stmts ss H. cbn. by apply range_WriteString_foldr.
Qed.

Lemma C8_IfExpression_String_witness :
  Expression_String listed_order
    (IfExpression (mkToken IF "if")
       (InfixExpression (mkToken LT "<")
          (Ident (mkIdentifier (mkToken IDENT "x") "x")) "<"
          (Ident (mkIdentifier (mkToken IDENT "y") "y")))
       (Some (mkBlockStatement (mkToken LBRACE "{")
                [ExpressionStatement (mkToken IDENT "x")
                   (Ident (mkIdentifier (mkToken IDENT "x") "x"))]))
       (Some (mkBlockStatement (mkToken LBRACE "{")
                [ExpressionStatement (mkToken IDENT "y")
                   (Ident (mkIdentifier (mkToken IDENT "y") "y"))])))
  = Some "if(x < y) xelse y"
  ∧ BlockStatement_String listed_order
      (mkBlockStatement (mkToken LBRACE "{")
         [ExpressionStatement (mkToken IDENT "x")
            (Ident (mkIdentifier (mkToken IDENT "x") "x"));
          ReturnStatement (mkToken RETURN "return")
            (Ident (mkIdentifier (mkToken IDENT "y") "y"))])
    = Some "xreturn  y;".
Proof.
  pose (x := Ident (mkIdentifier (mkToken IDENT "x") "x")).
  pose (y := Ident (mkIdentifier (mkToken IDENT "y") "y")).
  pose (bx := mkBlockStatement (mkToken LBRACE "{")
                [ExpressionStatement (mkToken IDENT "x") x]).
  pose (by_ := mkBlockStatement (mkToken LBRACE "{")
                 [ExpressionStatement (mkToken IDENT "y") y]).
  pose proof (C8_IfExpression_String listed_order (mkToken IF "if")
                (InfixExpression (mkToken LT "<") x "<" y) bx
                "(x < y)" "x" eq_refl eq_refl) as (_ & H2 & H3).
  split.
  - exact (H2 by_ "y" eq_refl).
  - apply (H3 (mkToken LBRACE "{") _ ["x"; "return  y;"]). repeat constructor.
Defined.

(** ** Rendering: hash literals *)

(** The loop over the entries of a map whose bodies return the strings
    [ss]: it returns those strings in the order of the range. *)
Lemma range_map_Some O (ss : list string) :
  ∃ ss', range_order O _ (Some <$> ss) = Some <$> ss' ∧ ss' ≡ₚ ss
         ∧ range_append id (range_order O _ (Some <$> ss)) [] = Some ss'.
Proof.
  destruct (Permutation_map_inv Some ss
              (range_order_perm O _ (Some <$> ss))) as (ss' & Heq & Hperm).
  change (range_order O _ (Some <$> ss) = Some <$> ss') in Heq.
  exists ss'. rewrite Heq.
  split; [done|]. split; [by symmetry|].
  apply range_append_Forall2. clear. induction ss'; constructor; done.
Qed.

(** The bodies of the loop over the entries [Pairs], when the keys and the
    values render: each returns the key's render, ":" and the value's. *)
Lemma HashLiteral_bodies O (Pairs : list (Expression * Expression)) ss :
  Forall2 (λ kv s, ∃ k v, Expression_String O kv.1 = Some k
                          ∧ Expression_String O kv.2 = Some v
                          ∧ s = k +:+ ":" +:+ v) Pairs ss →
  map (λ kv, k ← Expression_String O kv.1;
             v ← Expression_String O kv.2;
             Some (k +:+ ":" +:+ v)) Pairs = Some <$> ss.
Proof.
  induction 1 as [|kv s Pairs ss (k & v & Hk & Hv & ->) _ IH]; [done|].
  cbn. rewrite Hk, Hv. cbn. by f_equal.
Qed.

(** C9. [String] of a [HashLiteral] whose entries render as the strings
    [ss] (for each entry the key's render, ":" and the value's render) is
    "{", those strings joined by ", " in the order [ss'] in which the range
    over the map visits the entries, and "}". With no entry it is "{}";
    with one entry it is "{", the key's render, ":", the value's render and
    "}", whatever the order of the range. *)
Theorem C9_HashLiteral_String O (tok : Token) :
  (∀ Pairs ss,
     Forall2 (λ kv s, ∃ k v, Expression_String O kv.1 = Some k
                             ∧ Expression_String O kv.2 = Some v
                             ∧ s = k +:+ ":" +:+ v) Pairs ss →
     ∃ ss', range_order O _ (Some <$> ss) = Some <$> ss' ∧ ss' ≡ₚ ss
            ∧ Expression_String O (HashLiteral tok Pairs)
              = Some ("{" +:+ String.concat ", " ss' +:+ "}"))
  ∧ Expression_String O (HashLiteral tok []) = Some "{}"
  ∧ (∀ key value k v,
       Expression_String O key = Some k →
       Expression_String O value = Some v →
       Expression_String O (HashLiteral tok [(key, value)])
       = Some ("{" +:+ k +:+ ":" +:+ v +:+ "}")).
Proof.
  assert (Hall : ∀ Pairs ss,
     Forall2 (λ kv s, ∃ k v, Expression_String O kv.1 = Some k
                             ∧ Expression_String O kv.2 = Some v
                             ∧ s = k +:+ ":" +:+ v) Pairs ss →
     ∃ ss', range_order O _ (Some <$> ss) = Some <$> ss' ∧ ss' ≡ₚ ss
            ∧ Expression_String O (HashLiteral tok Pairs)
              = Some ("{" +:+ String.concat ", " ss' +:+ "}")).
  { intros Pairs ss H.
    destruct (range_map_Some O ss) as (ss' & Heq & Hperm & Hloop).
    exists ss'. split; [done|]. split; [done|].
    cbn. rewrite (HashLiteral_bodies O Pairs ss H), Hloop. reflexivity. }
  split; [exact Hall|]. split.
  - destruct (Hall [] []) as (ss' & _ & Hperm & ->); [constructor|].
    apply Permutation_nil_r in Hperm as ->. done.
  - intros key value k v Hk Hv.
    destruct (Hall [(key, value)] [k +:+ ":" +:+ v]) as (ss' & _ & Hperm & ->).
    { repeat constructor. by exists k, v. }
    apply Permutation_singleton_r in Hperm as ->. cbn. f_equal.
    by rewrite !append_assoc.
Qed.

Lemma C9_HashLiteral_String_witness :
  Expression_String listed_order
    (HashLiteral (mkToken LBRACE "{")
       [(StringLiteral (mkToken STRING "a") "a", IntegerLiteral (mkToken INT "1") 1);
        (StringLiteral (mkToken STRING "b") "b", IntegerLiteral (mkToken INT "2") 2)])
  = Some "{a:1, b:2}"
  ∧ Expression_String listed_order
      (HashLiteral (mkToken LBRACE "{")
         [(StringLiteral (mkToken STRING "a") "a",
           IntegerLiteral (mkToken INT "1") 1)])
    = Some "{a:1}".
Proof.
  pose proof (C9_HashLiteral_String listed_order (mkToken LBRACE "{"))
    as (H1 & _ & H3).
  split.
  - destruct (H1 [(StringLiteral (mkToken STRING "a") "a",
                   IntegerLiteral (mkToken INT "1") 1);
                  (StringLiteral (mkToken STRING "b") "b",
                   IntegerLiteral (mkToken INT "2") 2)]
                ["a:1"; "b:2"]) as (ss' & Heq & _ & ->).
    + repeat constructor; by eexists _, _.
    + destruct ss' as [|s1 [|s2 [|s3 ss']]]; by simplify_eq/=.
  - exact (H3 (StringLiteral (mkToken STRING "a") "a")
             (IntegerLiteral (mkToken INT "1") 1) "a" "1" eq_refl eq_refl).
Defined.

(** ** Rendering: when [String] returns *)

Lemma list_all_Forall {A} (P : A → Prop) (l : list A) :
  list_all A P l → Forall P l.
Proof. induction 1; by constructor. Qed.

Lemma forallb_Forall {A} (f : A → bool) (l : list A) :
  forallb f l = true ↔ Forall (λ x, f x = true) l.
Proof. rewrite forallb_forall, Forall_forall. by setoid_rewrite list_elem_of_In. Qed.

(** A loop over a slice returns exactly when each call of its body does. *)
Lemma range_append_is_Some {A} (f : A → option string) l acc :
  is_Some (range_append f l acc) ↔ Forall (λ x, is_Some (f x)) l.
Proof.
  rewrite range_append_mapM, <-(mapM_is_Some f l).
  destruct (mapM f l); cbn;
    [split; intros _; by eexists|split; intros [? [=]]].
Qed.

Lemma range_WriteString_is_Some {A} (f : A → option string) l out :
  is_Some (range_WriteString f l out) ↔ Forall (λ x, is_Some (f x)) l.
Proof.
  rewrite range_WriteString_mapM, <-(mapM_is_Some f l).
  destruct (mapM f l); cbn;
    [split; intros _; by eexists|split; intros [? [=]]].
Qed.

(** The same, with the body agreeing with a test on each element. *)
Lemma range_append_is_Some_forallb {A} (f : A → option string)
    (c : A → bool) l acc :
  Forall (λ x, is_Some (f x) ↔ c x = true) l →
  is_Some (range_append f l acc) ↔ forallb c l = true.
Proof.
  intros H. rewrite range_append_is_Some, forallb_Forall.
  induction H as [|x l Hx _ IH]; [done|].
  rewrite !Forall_cons. by rewrite Hx, IH.
Qed.

Lemma range_WriteString_is_Some_forallb {A} (f : A → option string)
    (c : A → bool) l out :
  Forall (λ x, is_Some (f x) ↔ c x = true) l →
  is_Some (range_WriteString f l out) ↔ forallb c l = true.
Proof.
  intros H. rewrite range_WriteString_is_Some, forallb_Forall.
  induction H as [|x l Hx _ IH]; [done|].
  rewrite !Forall_cons. by rewrite Hx, IH.
Qed.

Lemma iff_is_Some_eq {A} (m : option A) (c : bool) :
  (is_Some m ↔ c = true) →
  c = match m with Some _ => true | None => false end.
Proof.
  intros [H1 H2]. destruct m, c; try done.
  - by apply H1.
  - by destruct H2.
Qed.

Lemma Identifier_String_is_Some (p : option Identifier) :
  is_Some (Identifier_String p) ↔ bool_decide (is_Some p) = true.
Proof.
  rewrite bool_decide_eq_true.
  destruct p as [id|]; cbn; [split; intros _; by eexists|split; intros [? [=]]].
Qed.

Ltac use_IH :=
  repeat match goal with
  | H : is_Some ?m ↔ ?c = true |- _ =>
      apply iff_is_Some_eq in H; rewrite H; clear H
  end.

Ltac some_iff :=
  cbn;
  first [ by (split; [intros _; reflexivity|intros _; eexists])
        | by (split; [intros [? [=]]|intros [=]]) ].

Lemma HashLiteral_loop_is_Some O (body : Expression * Expression → option string)
    (c : Expression * Expression → bool) Pairs :
  Forall (λ kv, is_Some (body kv) ↔ c kv = true) Pairs →
  is_Some (range_append id (range_order O _ (map body Pairs)) [])
  ↔ forallb c Pairs = true.
Proof.
  intros H. rewrite range_append_is_Some, (range_order_perm O).
  rewrite Forall_map, forallb_Forall.
  induction H as [|x l Hx _ IH]; [done|].
  rewrite !Forall_cons. by rewrite <-Hx, IH.
Qed.

Lemma list_all_prod_Forall O (ps : list (Expression * Expression)) :
  list_all _
    (prod_all _ (λ e, is_Some (Expression_String O e)
                      ↔ Expression_complete e = true)
              _ (λ e, is_Some (Expression_String O e)
                      ↔ Expression_complete e = true)) ps →
  Forall (λ kv, is_Some (k ← Expression_String O kv.1;
                         v ← Expression_String O kv.2;
                         Some (k +:+ ":" +:+ v))
                ↔ Expression_complete kv.1 && Expression_complete kv.2 = true)
    ps.
Proof.
  induction 1 as [|kv Hkv ps _ IH]; constructor; [|done].
  destruct Hkv as [k Hk v Hv]. cbn. use_IH.
  destruct (Expression_String O k); [|some_iff].
  destruct (Expression_String O v); some_iff.
Qed.

Lemma String_is_Some_iff_complete O :
  (∀ e, is_Some (Expression_String O e) ↔ Expression_complete e = true)
  ∧ (∀ s, is_Some (Statement_String O s) ↔ Statement_complete s = true)
  ∧ (∀ bs, is_Some (BlockStatement_String O bs)
           ↔ BlockStatement_complete bs = true).
Proof.
  apply node_mutind.
  - some_iff.
  - some_iff.
  - intros; some_iff.
  - intros; some_iff.
  - intros tok op r IHr. cbn. use_IH.
    destruct (Expression_String O r); some_iff.
  - intros tok l IHl op r IHr. cbn. use_IH.
    destruct (Expression_String O l); [|some_iff].
    destruct (Expression_String O r); some_iff.
  - intros; some_iff.
  - intros tok c IHc cons Hcons alt Halt. cbn. use_IH.
    destruct (Expression_String O c); [|some_iff]. cbn.
    destruct Hcons as [bs IHb|]; [|some_iff]. use_IH.
    destruct (BlockStatement_String O bs); [|some_iff]. cbn.
    destruct Halt as [bs' IHb'|]; [|some_iff]. use_IH.
    destruct (BlockStatement_String O bs'); some_iff.
  - intros tok ps body Hbody. cbn.
    pose proof (range_append_is_Some_forallb Identifier_String
                  (λ p, bool_decide (is_Some p)) ps []
                  (Forall_true _ _ Identifier_String_is_Some)) as Hps.
    use_IH. destruct (range_append Identifier_String ps []); [|some_iff]. cbn.
    destruct Hbody as [bs IHb|]; [|some_iff]. use_IH.
    destruct (BlockStatement_String O bs); some_iff.
  - intros tok f IHf args Hargs. cbn.
    pose proof (range_append_is_Some_forallb _ _ args []
                  (list_all_Forall _ _ Hargs)) as Hl.
    use_IH. 
    destruct (range_append (Expression_String O) args []);
      destruct (Expression_String O f); some_iff.
  - intros; some_iff.
  - intros tok els Hels. cbn.
    pose proof (range_append_is_Some_forallb _ _ els []
                  (list_all_Forall _ _ Hels)) as Hl.
    use_IH. destruct (range_append (Expression_String O) els []); some_iff.
  - intros tok l IHl i IHi. cbn. use_IH.
    destruct (Expression_String O l); [|some_iff].
    destruct (Expression_String O i); some_iff.
  - intros tok ps Hps. cbn.
    pose proof (HashLiteral_loop_is_Some O _ _ ps
                  (list_all_prod_Forall O ps Hps)) as Hl.
    cbn in Hl. use_IH.
    match goal with |- is_Some (?m ≫= _) ↔ _ => destruct m end; some_iff.
  - some_iff.
  - some_iff.
  - intros tok name v IHv. cbn.
    pose proof (Identifier_String_is_Some name) as Hn. use_IH.
    destruct (Identifier_String name); [|some_iff]. cbn.
    destruct (Expression_is_nil v); [some_iff|].
    destruct (Expression_String O v); some_iff.
  - intros tok v IHv. cbn. use_IH.
    destruct (Expression_is_nil v); [some_iff|].
    destruct (Expression_String O v); some_iff.
  - intros tok v IHv. cbn. use_IH.
    destruct (Expression_is_nil v); [some_iff|].
    destruct (Expression_String O v); some_iff.
  - intros bs IHb. cbn. done.
  - intros tok stmts Hstmts. cbn.
    apply range_WriteString_is_Some_forallb, list_all_Forall, Hstmts.
Qed.

(** C1, as the code has it. [String] returns a string on every node that is
    complete: in it and below it, a child may be nil only where [String]
    tests for nil before the call, that is in [LetStatement.Value],
    [ReturnStatement.ReturnValue], [ExpressionStatement.Expression] and
    [IfExpression.Alternative]. A nil child of that sort adds no text; an
    [ExpressionStatement] without expression renders as the empty string. *)
Theorem C1_String_returns_on_complete O :
  (∀ e, Expression_complete e = true → is_Some (Expression_String O e))
  ∧ (∀ s, Statement_complete s = true → is_Some (Statement_String O s))
  ∧ (∀ p, Program_complete p = true → is_Some (Program_String O p))
  ∧ (∀ tok, Statement_String O (ExpressionStatement tok nilExpression)
            = Some "").
Proof.
  destruct (String_is_Some_iff_complete O) as (He & Hs & _).
  split; [|split; [|split]].
  - intros e. apply He.
  - intros s. apply Hs.
  - intros [stmts]. unfold Program_complete, Program_String. cbn.
    intros H. eapply range_WriteString_is_Some_forallb; [|exact H].
    apply Forall_true, Hs.
  - done.
Qed.

Lemma C1_String_returns_on_complete_witness :
  is_Some (Expression_String listed_order
    (FunctionLiteral (mkToken FUNCTION "fn")
       [Some (mkIdentifier (mkToken IDENT "x") "x")]
       (Some (mkBlockStatement (mkToken LBRACE "{")
                [ReturnStatement (mkToken RETURN "return") nilExpression]))))
  ∧ is_Some (Statement_String listed_order
      (LetStatement (mkToken LET "let")
         (Some (mkIdentifier (mkToken IDENT "x") "x")) nilExpression))
  ∧ is_Some (Program_String listed_order
      (mkProgram
         [ExpressionStatement (mkToken IF "if")
            (IfExpression (mkToken IF "if")
               (Boolean (mkToken TRUE "true") true)
               (Some (mkBlockStatement (mkToken LBRACE "{")
                        [ExpressionStatement (mkToken INT "1") nilExpression]))
               None)])).
Proof.
  pose proof (C1_String_returns_on_complete listed_order) as (He & Hs & Hp & _).
  split; [|split].
  - apply He. reflexivity.
  - apply Hs. reflexivity.
  - apply Hp. reflexivity.
Defined.

(** C1, as the spec words it, fails: [String] panics on a [LetStatement]
    with a nil [Name], on a [PrefixExpression] with a nil [Right], on an
    [IfExpression] with a nil [Condition] or a nil [Consequence], and on a
    [FunctionLiteral] with a nil [Body]. *)
Lemma C1_String_panics_on_nil_child :
  Statement_String listed_order
    (LetStatement (mkToken LET "let") None (IntegerLiteral (mkToken INT "5") 5))
  = None
  ∧ Expression_String listed_order
      (PrefixExpression (mkToken MINUS "-") "-" nilExpression)
    = None
  ∧ Expression_String listed_order
      (IfExpression (mkToken IF "if") nilExpression
         (Some (mkBlockStatement (mkToken LBRACE "{") [])) None)
    = None
  ∧ Expression_String listed_order
      (IfExpression (mkToken IF "if") (Boolean (mkToken TRUE "true") true)
         None None)
    = None
  ∧ Expression_String listed_order
      (FunctionLiteral (mkToken FUNCTION "fn") [] None)
    = None.
Proof. repeat split. Qed.

(** ** Rendering: literals with a list of children, calls and indexing *)

(** [String] of an [ArrayLiteral] whose elements render as [ss] is "[",
    [ss] joined by ", " in the order of the slice, and "]"; it is "[]" for
    an array without elements. *)
Theorem ArrayLiteral_String_joined O (tok : Token) Elements ss :
  Forall2 (λ e s, Expression_String O e = Some s) Elements ss →
  Expression_String O (ArrayLiteral tok Elements)
  = Some ("[" +:+ String.concat ", " ss +:+ "]")
  ∧ Expression_String O (ArrayLiteral tok []) = Some "[]".
Proof.
  intros H. split; [|done].
  cbn. by rewrite (range_append_Forall2 _ _ _ H).
Qed.

Lemma ArrayLiteral_String_joined_witness :
  Expression_String listed_order
    (ArrayLiteral (mkToken LBRACKET "[")
       [IntegerLiteral (mkToken INT "1") 1; IntegerLiteral (mkToken INT "2") 2])
  = Some "[1, 2]".
Proof.
  apply (ArrayLiteral_String_joined listed_order (mkToken LBRACKET "[")
           [IntegerLiteral (mkToken INT "1") 1;
            IntegerLiteral (mkToken INT "2") 2] ["1"; "2"]).
  repeat constructor.
Defined.

(** [String] of a [CallExpression] whose [Function] renders as [sf] and
    whose arguments render as [ss] is [sf], "(", [ss] joined by ", " and
    ")": the callee is not wrapped in parentheses. *)
Theorem CallExpression_String_joined O (tok : Token) Function Arguments sf ss :
  Expression_String O Function = Some sf →
  Forall2 (λ e s, Expression_String O e = Some s) Arguments ss →
  Expression_String O (CallExpression tok Function Arguments)
  = Some (sf +:+ "(" +:+ String.concat ", " ss +:+ ")").
Proof.
  intros Hf H. cbn. rewrite (range_append_Forall2 _ _ _ H). cbn.
  rewrite Hf. cbn. f_equal. buffer_eq.
Qed.

Lemma CallExpression_String_joined_witness :
  Expression_String listed_order
    (CallExpression (mkToken LPAREN "(")
       (Ident (mkIdentifier (mkToken IDENT "add") "add"))
       [IntegerLiteral (mkToken INT "1") 1;
        PrefixExpression (mkToken MINUS "-") "-"
          (IntegerLiteral (mkToken INT "2") 2)])
  = Some "add(1, (-2))"
  ∧ Expression_String listed_order
      (CallExpression (mkToken LPAREN "(")
         (Ident (mkIdentifier (mkToken IDENT "f") "f")) [])
    = Some "f()".
Proof.
  split.
  - apply (CallExpression_String_joined listed_order (mkToken LPAREN "(")
             (Ident (mkIdentifier (mkToken IDENT "add") "add")) _
             "add" ["1"; "(-2)"] eq_refl).
    repeat constructor.
  - apply (CallExpression_String_joined listed_order (mkToken LPAREN "(")
             (Ident (mkIdentifier (mkToken IDENT "f") "f")) [] "f" []
             eq_refl).
    constructor.
Defined.

(** [String] of a [FunctionLiteral] whose parameters render as [ps] and
    whose [Body] renders as [sb] is the literal of the token, "(", [ps]
    joined by ", ", ")" and [sb], with no brace and no space before the
    body. *)
Theorem FunctionLiteral_String_joined O (tok : Token) Parameters
    (Body : BlockStatement) ps sb :
  Forall2 (λ p s, Identifier_String p = Some s) Parameters ps →
  BlockStatement_String O Body = Some sb →
  Expression_String O (FunctionLiteral tok Parameters (Some Body))
  = Some (Literal tok +:+ "(" +:+ String.concat ", " ps +:+ ")" +:+ sb).
Proof.
  intros H Hb. cbn. rewrite (range_append_Forall2 _ _ _ H). cbn.
  rewrite Hb. cbn. f_equal. buffer_eq.
Qed.

Lemma FunctionLiteral_String_joined_witness :
  Expression_String listed_order
    (FunctionLiteral (mkToken FUNCTION "fn")
       [Some (mkIdentifier (mkToken IDENT "x") "x");
        Some (mkIdentifier (mkToken IDENT "y") "y")]
       (Some (mkBlockStatement (mkToken LBRACE "{")
                [ExpressionStatement (mkToken IDENT "x")
                   (InfixExpression (mkToken PLUS "+")
                      (Ident (mkIdentifier (mkToken IDENT "x") "x")) "+"
                      (Ident (mkIdentifier (mkToken IDENT "y") "y")))])))
  = Some "fn(x, y)(x + y)".
Proof.
  apply (FunctionLiteral_String_joined listed_order (mkToken FUNCTION "fn")
           _ _ ["x"; "y"] "(x + y)").
  - repeat constructor.
  - reflexivity.
Defined.

(** [String] of an [IndexExpression] whose [Left] and [Index] render as
    [sl] and [si] is "(", [sl], "[", [si] and "])". *)
Theorem IndexExpression_String_wrapped O (tok : Token) Left Index sl si :
  Expression_String O Left = Some sl →
  Expression_String O Index = Some si →
  Expression_String O (IndexExpression tok Left Index)
  = Some ("(" +:+ sl +:+ "[" +:+ si +:+ "])").
Proof.
  intros Hl Hi. cbn. rewrite Hl, Hi. cbn. f_equal. buffer_eq.
Qed.

Lemma IndexExpression_String_wrapped_witness :
  Expression_String listed_order
    (IndexExpression (mkToken LBRACKET "[")
       (Ident (mkIdentifier (mkToken IDENT "arr") "arr"))
       (IntegerLiteral (mkToken INT "0") 0))
  = Some "(arr[0])".
Proof.
  exact (IndexExpression_String_wrapped listed_order (mkToken LBRACKET "[")
           (Ident (mkIdentifier (mkToken IDENT "arr") "arr"))
           (IntegerLiteral (mkToken INT "0") 0) "arr" "0" eq_refl eq_refl).
Defined.

(** ** Panics *)

Lemma is_Some_iff_None_iff {A} (m : option A) (c : bool) :
  (is_Some m ↔ c = true) → (m = None ↔ c = false).
Proof.
  intros H%iff_is_Some_eq. subst c. by destruct m.
Qed.

Lemma Program_String_is_Some_iff_complete O (p : Program) :
  is_Some (Program_String O p) ↔ Program_complete p = true.
Proof.
  destruct p as [stmts]. unfold Program_complete, Program_String. cbn.
  apply range_WriteString_is_Some_forallb, Forall_true.
  apply (String_is_Some_iff_complete O).
Qed.

(** [String] panics on exactly the incomplete trees: those that hold,
    at some depth, a nil child that [String] uses without a nil test (a nil
    statement of a program or block, a nil [Name], operand, [Condition],
    [Consequence], [Body], parameter, callee, argument, element, index, key
    or value). This holds for expressions, statements, blocks and
    programs. *)
Theorem String_panics_iff_incomplete O :
  (∀ e, Expression_String O e = None ↔ Expression_complete e = false)
  ∧ (∀ s, Statement_String O s = None ↔ Statement_complete s = false)
  ∧ (∀ bs, BlockStatement_String O bs = None
           ↔ BlockStatement_complete bs = false)
  ∧ (∀ p, Program_String O p = None ↔ Program_complete p = false).
Proof.
  destruct (String_is_Some_iff_complete O) as (He & Hs & Hb).
  repeat split; intros; try (by apply is_Some_iff_None_iff);
    try (by apply (is_Some_iff_None_iff _ _ (He _)));
    try (by apply (is_Some_iff_None_iff _ _ (Hs _)));
    try (by apply (is_Some_iff_None_iff _ _ (Hb _)));
    by apply (is_Some_iff_None_iff _ _ (Program_String_is_Some_iff_complete O _)).
Qed.

(** Whether [String] returns does not depend on the order in which the
    range over a map visits its entries: it returns under one order exactly
    when it returns under any other. *)
Theorem String_returns_whatever_order O O' :
  (∀ e, is_Some (Expression_String O e) ↔ is_Some (Expression_String O' e))
  ∧ (∀ s, is_Some (Statement_String O s) ↔ is_Some (Statement_String O' s))
  ∧ (∀ p, is_Some (Program_String O p) ↔ is_Some (Program_String O' p)).
Proof.
  destruct (String_is_Some_iff_complete O) as (He & Hs & _).
  destruct (String_is_Some_iff_complete O') as (He' & Hs' & _).
  repeat split; intros H.
  - by apply He', He.
  - by apply He, He'.
  - by apply Hs', Hs.
  - by apply Hs, Hs'.
  - by apply Program_String_is_Some_iff_complete,
             (Program_String_is_Some_iff_complete O).
  - by apply Program_String_is_Some_iff_complete,
             (Program_String_is_Some_iff_complete O').
Qed.

(** ** TokenLiteral *)

Ltac not_nil_case :=
  cbn; split;
  [ first [ by intros [? [=]] | by intros _; split ]
  | first [ by (intros [Hn _]; destruct Hn)
          | by (intros [_ Hn]; destruct Hn)
          | by (intros _; eexists) ] ].

Lemma TokenLiteral_is_Some_iff :
  (∀ e, is_Some (Expression_TokenLiteral e)
        ↔ e ≠ nilExpression ∧ e ≠ nilptrExpression)
  ∧ (∀ s, is_Some (Statement_TokenLiteral s)
          ↔ s ≠ nilStatement ∧ s ≠ nilptrStatement)
  ∧ (∀ p, is_Some (Program_TokenLiteral p)
          ↔ Forall (λ s, s ≠ nilStatement ∧ s ≠ nilptrStatement)
              (Statements p)).
Proof.
  assert (Hs : ∀ s, is_Some (Statement_TokenLiteral s)
                    ↔ s ≠ nilStatement ∧ s ≠ nilptrStatement).
  { intros s. destruct s as [| | | | |[]]; not_nil_case. }
  split; [|split; [exact Hs|]].
  - intros e. destruct e; not_nil_case.
  - intros [stmts]. unfold Program_TokenLiteral. cbn.
    rewrite range_WriteString_is_Some.
    induction stmts as [|s stmts IH]; [done|].
    by rewrite !Forall_cons, Hs, IH.
Qed.

(** [TokenLiteral] returns on every node that is not nil, whatever its
    children are, and panics on a nil interface value and on a nil pointer;
    that of a [Program] returns exactly when none of its statements is
    nil. *)
Theorem TokenLiteral_returns_iff_not_nil :
  (∀ e, is_Some (Expression_TokenLiteral e)
        ↔ e ≠ nilExpression ∧ e ≠ nilptrExpression)
  ∧ (∀ s, is_Some (Statement_TokenLiteral s)
          ↔ s ≠ nilStatement ∧ s ≠ nilptrStatement)
  ∧ (∀ p, is_Some (Program_TokenLiteral p)
          ↔ Forall (λ s, s ≠ nilStatement ∧ s ≠ nilptrStatement)
              (Statements p)).
Proof. exact TokenLiteral_is_Some_iff. Qed.

(** Wherever [String] returns, [TokenLiteral] returns too: on an
    expression, on a statement and on a program. *)
Theorem TokenLiteral_returns_where_String_returns O :
  (∀ e, is_Some (Expression_String O e) → is_Some (Expression_TokenLiteral e))
  ∧ (∀ s, is_Some (Statement_String O s) → is_Some (Statement_TokenLiteral s))
  ∧ (∀ p, is_Some (Program_String O p) → is_Some (Program_TokenLiteral p)).
Proof.
  assert (Hs : ∀ s, is_Some (Statement_String O s)
                    → is_Some (Statement_TokenLiteral s)).
  { intros s [r Hr]. apply TokenLiteral_is_Some_iff.
    by destruct s. }
  split; [|split; [exact Hs|]].
  - intros e [r Hr]. apply TokenLiteral_is_Some_iff. by destruct e.
  - intros [stmts]. unfold Program_String, Program_TokenLiteral. cbn.
    rewrite !range_WriteString_is_Some. intros H.
    eapply Forall_impl; [exact H|exact Hs].
Qed.

Lemma TokenLiteral_returns_where_String_returns_witness :
  is_Some (Expression_TokenLiteral
             (PrefixExpression (mkToken BANG "!") "!"
                (Boolean (mkToken TRUE "true") true)))
  ∧ is_Some (Statement_TokenLiteral
               (ReturnStatement (mkToken RETURN "return") nilExpression))
  ∧ is_Some (Program_TokenLiteral
               (mkProgram
                  [ReturnStatement (mkToken RETURN "return") nilExpression])).
Proof.
  pose proof (TokenLiteral_returns_where_String_returns listed_order)
    as (He & Hs & Hp).
  split; [|split].
  - apply He. by eexists.
  - apply Hs. by eexists.
  - apply Hp. by eexists.
Defined.

(** ** Programs in sequence *)

Lemma range_WriteString_app {A} (f : A → option string) l1 l2 out :
  range_WriteString f (l1 ++ l2) out =
  out1 ← range_WriteString f l1 out; range_WriteString f l2 out1.
Proof.
  revert out. induction l1 as [|x l1 IH]; intros out; cbn; [done|].
  destruct (f x) as [s|]; cbn; [apply IH|done].
Qed.

Lemma range_WriteString_from {A} (f : A → option string) l out :
  range_WriteString f l out =
  s ← range_WriteString f l new_Buffer; Some (out +:+ s).
Proof.
  rewrite !range_WriteString_mapM. by destruct (mapM f l).
Qed.

(** The rendering and the token literal of a program made of the
    statements of one program followed by those of another are the
    concatenations of the two renderings and of the two token literals; it
    panics when one of the two does. *)
Theorem Program_String_app O (stmts1 stmts2 : list Statement) :
  Program_String O (mkProgram (stmts1 ++ stmts2))
  = (s1 ← Program_String O (mkProgram stmts1);
     s2 ← Program_String O (mkProgram stmts2);
     Some (s1 +:+ s2))
  ∧ Program_TokenLiteral (mkProgram (stmts1 ++ stmts2))
    = (t1 ← Program_TokenLiteral (mkProgram stmts1);
       t2 ← Program_TokenLiteral (mkProgram stmts2);
       Some (t1 +:+ t2)).
Proof.
  unfold Program_String, Program_TokenLiteral. cbn.
  split; rewrite range_WriteString_app;
    match goal with
    | |- ?m ≫= _ = _ => destruct m as [s1|]
    end; cbn; try done; apply range_WriteString_from.
Qed.

(** ** Keywords *)

(** No two reserved words share a kind: when [LookuptIdent] returns the
    same kind for two strings and that kind is not [IDENT], the strings are
    the same. *)
Theorem LookuptIdent_keyword_inj (a b : string) :
  LookuptIdent a = LookuptIdent b → LookuptIdent a ≠ IDENT → a = b.
Proof.
  unfold LookuptIdent. rewrite !keywords_lookup.
  repeat case_decide; subst; try done.
Qed.

Lemma LookuptIdent_keyword_inj_witness :
  LookuptIdent "return" = LookuptIdent "return"
  ∧ LookuptIdent "return" ≠ IDENT ∧ "return" = "return".
Proof.
  split; [reflexivity|]. split; [discriminate|].
  apply LookuptIdent_keyword_inj; [reflexivity|discriminate].
Defined.

(** ** Rendering and the order of a range *)

(** A range over a map of at most one entry has one possible order. *)
Lemma range_order_short O {A} (l : list A) :
  (length l ≤ 1)%nat → range_order O A l = l.
Proof.
  intros H. pose proof (range_order_perm O A l) as Hp.
  destruct l as [|x [|y l]]; cbn in H.
  - by apply Permutation_nil_r.
  - by apply Permutation_singleton_r.
  - lia.
Qed.

Lemma range_append_ext {A} (f g : A → option string) l acc :
  Forall (λ x, f x = g x) l → range_append f l acc = range_append g l acc.
Proof.
  intros H. revert acc. induction H as [|x l Hx _ IH]; intros acc; [done|].
  cbn. rewrite Hx. destruct (g x); cbn; [apply IH|done].
Qed.

Lemma range_WriteString_ext {A} (f g : A → option string) l out :
  Forall (λ x, f x = g x) l →
  range_WriteString f l out = range_WriteString g l out.
Proof.
  intros H. revert out. induction H as [|x l Hx _ IH]; intros out; [done|].
  cbn. rewrite Hx. destruct (g x); cbn; [apply IH|done].
Qed.

Lemma list_all_forallb_Forall {A} (c : A → bool) (Q : A → Prop) l :
  list_all A (λ x, c x = true → Q x) l → forallb c l = true → Forall Q l.
Proof.
  induction 1 as [|x Hx l _ IH]; [constructor|].
  cbn. intros [Hc Hl]%andb_prop. constructor; auto.
Qed.

Lemma few_pairs_bodies O O' (ps : list (Expression * Expression)) :
  list_all _
    (prod_all _ (λ e, Expression_few_pairs e = true →
                      Expression_String O e = Expression_String O' e)
              _ (λ e, Expression_few_pairs e = true →
                      Expression_String O e = Expression_String O' e)) ps →
  forallb (λ kv, Expression_few_pairs kv.1 && Expression_few_pairs kv.2) ps
  = true →
  map (λ kv, k ← Expression_String O kv.1;
             v ← Expression_String O kv.2;
             Some (k +:+ ":" +:+ v)) ps
  = map (λ kv, k ← Expression_String O' kv.1;
               v ← Expression_String O' kv.2;
               Some (k +:+ ":" +:+ v)) ps.
Proof.
  induction 1 as [|kv Hkv ps _ IH]; [done|].
  cbn. intros [[Hk Hv]%andb_prop Hps]%andb_prop.
  destruct Hkv as [k IHk v IHv]. cbn in *.
  by rewrite (IHk Hk), (IHv Hv), (IH Hps).
Qed.

Lemma String_few_pairs_order O O' :
  (∀ e, Expression_few_pairs e = true →
        Expression_String O e = Expression_String O' e)
  ∧ (∀ s, Statement_few_pairs s = true →
          Statement_String O s = Statement_String O' s)
  ∧ (∀ bs, BlockStatement_few_pairs bs = true →
           BlockStatement_String O bs = BlockStatement_String O' bs).
Proof.
  apply node_mutind; try done.
  - intros tok op r IH H. cbn in *. by rewrite (IH H).
  - intros tok l IHl op r IHr [Hl Hr]%andb_prop. cbn.
    by rewrite (IHl Hl), (IHr Hr).
  - intros tok c IHc cons Hcons alt Halt H. cbn in H.
    apply andb_prop in H as [[Hc Hb]%andb_prop Ha]. cbn. rewrite (IHc Hc).
    destruct Hcons as [bs IHb|]; destruct Halt as [bs' IHb'|]; cbn;
      rewrite ?(IHb Hb), ?(IHb' Ha); done.
  - intros tok ps body Hbody H. cbn in *.
    destruct Hbody as [bs IHb|]; [rewrite (IHb H)|]; done.
  - intros tok f IHf args Hargs [Hf Ha]%andb_prop. cbn.
    rewrite (IHf Hf).
    by rewrite (range_append_ext _ (Expression_String O') args []
                  (list_all_forallb_Forall _ _ _ Hargs Ha)).
  - intros tok els Hels H. cbn in *.
    by rewrite (range_append_ext _ (Expression_String O') els []
                  (list_all_forallb_Forall _ _ _ Hels H)).
  - intros tok l IHl i IHi [Hl Hi]%andb_prop. cbn.
    by rewrite (IHl Hl), (IHi Hi).
  - intros tok ps Hps H. cbn in H. apply andb_prop in H as [Hlen Hall].
    cbn. apply Nat.leb_le in Hlen.
    rewrite !range_order_short by (by rewrite length_map).
    by rewrite (few_pairs_bodies O O' ps Hps Hall).
  - intros tok name v IHv H. cbn in *.
    destruct (Expression_is_nil v); [done|]. by rewrite (IHv H).
  - intros tok v IHv H. cbn in *.
    destruct (Expression_is_nil v); [done|]. by rewrite (IHv H).
  - intros tok v IHv H. cbn in *.
    destruct (Expression_is_nil v); [done|]. by rewrite (IHv H).
  - intros tok stmts Hstmts H. cbn in *.
    apply range_WriteString_ext.
    by apply (list_all_forallb_Forall _ _ _ Hstmts).
Qed.

(** On a tree in which no [HashLiteral] has two entries or more, [String]
    is the same under every order of the ranges over maps: the rendering of
    such an expression, statement or program is determined by the tree. *)
Theorem String_same_whatever_order_few_pairs O O' :
  (∀ e, Expression_few_pairs e = true →
        Expression_String O e = Expression_String O' e)
  ∧ (∀ s, Statement_few_pairs s = true →
          Statement_String O s = Statement_String O' s)
  ∧ (∀ p, Program_few_pairs p = true →
          Program_String O p = Program_String O' p).
Proof.
  destruct (String_few_pairs_order O O') as (He & Hs & _).
  split; [exact He|]. split; [exact Hs|].
  intros [stmts] H. unfold Program_String, Program_few_pairs in *. cbn in *.
  apply range_WriteString_ext.
  apply forallb_Forall in H. eapply Forall_impl; [exact H|]. apply Hs.
Qed.

Lemma String_same_whatever_order_few_pairs_witness :
  Expression_String listed_order
    (ArrayLiteral (mkToken LBRACKET "[")
       [HashLiteral (mkToken LBRACE "{")
          [(StringLiteral (mkToken STRING "a") "a",
            IntegerLiteral (mkToken INT "1") 1)];
        HashLiteral (mkToken LBRACE "{") []])
  = Expression_String reversed_order
      (ArrayLiteral (mkToken LBRACKET "[")
         [HashLiteral (mkToken LBRACE "{")
            [(StringLiteral (mkToken STRING "a") "a",
              IntegerLiteral (mkToken INT "1") 1)];
          HashLiteral (mkToken LBRACE "{") []])
  ∧ Statement_String listed_order
      (ReturnStatement (mkToken RETURN "return")
         (HashLiteral (mkToken LBRACE "{") []))
    = Statement_String reversed_order
        (ReturnStatement (mkToken RETURN "return")
           (HashLiteral (mkToken LBRACE "{") []))
  ∧ Program_String listed_order
      (mkProgram [ExpressionStatement (mkToken LBRACE "{")
                    (HashLiteral (mkToken LBRACE "{") [])])
    = Program_String reversed_order
        (mkProgram [ExpressionStatement (mkToken LBRACE "{")
                      (HashLiteral (mkToken LBRACE "{") [])]).
Proof.
  pose proof (String_same_whatever_order_few_pairs
                listed_order reversed_order) as (He & Hs & Hp).
  split; [|split].
  - apply He. reflexivity.
  - apply Hs. reflexivity.
  - apply Hp. reflexivity.
Defined.

(** The bound of one entry is needed: with two entries the two orders give
    two texts. *)
Example String_two_pairs_orders :
  Expression_String listed_order
    (HashLiteral (mkToken LBRACE "{")
       [(StringLiteral (mkToken STRING "a") "a", IntegerLiteral (mkToken INT "1") 1);
        (StringLiteral (mkToken STRING "b") "b", IntegerLiteral (mkToken INT "2") 2)])
  = Some "{a:1, b:2}"
  ∧ Expression_String reversed_order
      (HashLiteral (mkToken LBRACE "{")
         [(StringLiteral (mkToken STRING "a") "a", IntegerLiteral (mkToken INT "1") 1);
          (StringLiteral (mkToken STRING "b") "b", IntegerLiteral (mkToken INT "2") 2)])
    = Some "{b:2, a:1}".
Proof. split; reflexivity. Qed.

(** ** The length of a rendering *)


(** The sum of the lengths of the strings of a list, and their number:
    what the length of the joined list depends on. *)
Local Abbreviation sizes :=
  (λ ss : list string, (sum_list_with String.length ss, length ss)).














(** ** Blocks among the statements of a program *)

(** A block adds no text of its own: the rendering of a program does not
    change when a [BlockStatement] among its statements is replaced by the
    statements of the block, in place. *)
Theorem Program_String_Block_flat O (tok : Token)
    (stmts1 stmts stmts2 : list Statement) :
  Program_String O
    (mkProgram (stmts1 ++ Block (mkBlockStatement tok stmts) :: stmts2))
  = Program_String O (mkProgram (stmts1 ++ stmts ++ stmts2)).
Proof.
  unfold Program_String. cbn. rewrite !range_WriteString_app.
  destruct (range_WriteString (Statement_String O) stmts1 new_Buffer)
    as [out1|]; cbn; [|done].
  rewrite range_WriteString_app, (range_WriteString_from _ stmts out1).
  by destruct (range_WriteString (Statement_String O) stmts new_Buffer).
Qed.
